(** * Section.tsx: the repository list component

    A shallow embedding of the React component [Section] of
    [src/Section.tsx]: its four state cells, its three [useEffect]
    callbacks, its two event handlers and the promise chain of the GitHub
    request, together with the properties of the derived-state pipeline.

    The component runs on a single-threaded event loop.  One transition of
    the model ([step]) handles one event of that loop (a keystroke in one of
    the two inputs, a click on the button, or the settling of one in-flight
    request) and runs the component until it is settled again: the state
    update, the re-render, and the effects whose dependencies changed. *)

From Stdlib Require Import Ascii String.
From stdpp Require Import base option list strings gmap.

Local Open Scope string_scope.
Local Open Scope list_scope.

(** ** JavaScript values

    [response.json()] yields [any], and the fetch callback reads
    [item.full_name] of an [item : any]: the arrays held by the component
    are arrays of arbitrary run-time values, whatever [useState<string[]>]
    declares.  A number keeps its literal text; the component never
    computes with numbers.  An object is its list of own properties (the
    first binding of a key is the one that is read). *)

#[warnings="-register-all"]
Inductive value : Type :=
| Undefined
| Null
| Bool (b : bool)
| Num (literal : string)
| Str (s : string)
| Arr (items : list value)
| Obj (props : list (string * value)).

(** Errors that the component can meet.  The message of a [TypeError]
    thrown by the component's own code is the one the engine derives from
    the source text of the failing expression. *)
Inductive error : Type :=
| NetworkError (message : string)  (* fetch() rejected: transport failure *)
| SyntaxError (message : string)   (* response.json() rejected: body is not JSON *)
| TypeError (message : string)     (* property read on null/undefined, call of a non-function *)
| InvalidChild.                    (* React: objects are not valid as a React child *)

Definition error_message (e : error) : string :=
  match e with
  | NetworkError m | SyntaxError m | TypeError m => m
  | InvalidChild => "Objects are not valid as a React child"
  end.

(** A computation that may throw. *)
Definition result (A : Type) : Type := error + A.

Definition ok {A} (a : A) : result A := inr a.
Definition throw {A} (e : error) : result A := inl e.

#[global] Instance result_bind : MBind result := λ A B k m,
  match m with
  | inl e => inl e
  | inr a => k a
  end.

(** [String.prototype.startsWith] at position 0, the inner loop of the
    naive substring search. *)
Fixpoint starts_with (s f : string) {struct f} : bool :=
  match f, s with
  | EmptyString, _ => true
  | String _ _, EmptyString => false
  | String c f', String d s' => if Ascii.eqb c d then starts_with s' f' else false
  end.

(** [s.includes(f)] on strings: [f] occurs in [s] at some position,
    compared code unit by code unit (no case folding, no normalisation).
    A character of [string] stands for a code unit of the JavaScript
    string. *)
Fixpoint includes (s f : string) : bool :=
  if starts_with s f then true
  else match s with
       | EmptyString => false
       | String _ s' => includes s' f
       end.

(** Own-property lookup in an object. *)
Fixpoint get_prop (key : string) (props : list (string * value)) : option value :=
  match props with
  | [] => None
  | (k, v) :: rest => if String.eqb k key then Some v else get_prop key rest
  end.

(** [item.full_name] for [item : any].  Reading a property of [null] or
    [undefined] throws; a primitive or an array has no such property; an
    object yields its own property or [undefined]. *)
Definition full_name (item : value) : result value :=
  match item with
  | Undefined => throw (TypeError "Cannot read properties of undefined (reading 'full_name')")
  | Null => throw (TypeError "Cannot read properties of null (reading 'full_name')")
  | Obj props => ok (default Undefined (get_prop "full_name" props))
  | Bool _ | Num _ | Str _ | Arr _ => ok Undefined
  end.

(** [Array.prototype.map] with a callback that may throw: elements are
    visited in order and the first exception aborts the whole call. *)
Fixpoint array_map (f : value → result value) (items : list value) : result (list value) :=
  match items with
  | [] => ok []
  | x :: rest =>
      y ← f x;
      ys ← array_map f rest;
      ok (y :: ys)
  end.

(** [data.map((item: any) => item.full_name)] for [data : any].  Only an
    array has a callable [map]; JSON data holds no function, so an own
    property called [map] of an object is not callable either. *)
Definition extract_names (data : value) : result (list value) :=
  match data with
  | Arr items => array_map full_name items
  | Undefined => throw (TypeError "Cannot read properties of undefined (reading 'map')")
  | Null => throw (TypeError "Cannot read properties of null (reading 'map')")
  | Bool _ | Num _ | Str _ | Obj _ => throw (TypeError "data.map is not a function")
  end.

(** SameValueZero of an array element with the string [f]. *)
Definition same_as_string (f : string) (v : value) : bool :=
  match v with
  | Str s => String.eqb s f
  | _ => false
  end.

(** [item.includes(filter)] for a run-time [item].  Strings search for a
    substring, arrays for an element; every other value either has no
    property to read or has no callable [includes]. *)
Definition item_includes (f : string) (item : value) : result bool :=
  match item with
  | Str s => ok (includes s f)
  | Arr items => ok (existsb (same_as_string f) items)
  | Undefined => throw (TypeError "Cannot read properties of undefined (reading 'includes')")
  | Null => throw (TypeError "Cannot read properties of null (reading 'includes')")
  | Bool _ | Num _ | Obj _ => throw (TypeError "item.includes is not a function")
  end.

(** [Array.prototype.filter] with a callback that may throw. *)
Fixpoint array_filter (p : value → result bool) (items : list value) : result (list value) :=
  match items with
  | [] => ok []
  | x :: rest =>
      p x ≫= λ b : bool,
      ys ← array_filter p rest;
      ok (if b then x :: ys else ys)
  end.

(** What React accepts as the child [{item}] of an [<li>]: text, numbers,
    booleans, [null], [undefined], and arrays of such; a plain object is
    rejected with an exception while rendering. *)
Fixpoint renderable (v : value) : bool :=
  match v with
  | Obj _ => false
  | Arr items => forallb renderable items
  | Undefined | Null | Bool _ | Num _ | Str _ => true
  end.

(** ** The component's state

    The four [useState] cells of [Section].  The cells [list], [filter],
    [fileredList] and [inputValue] carry the prefix [st_] here, as [list]
    and [filter] are taken. *)

Record State : Type := mkState {
  st_list : list value;          (* const [list, setList] = useState<string[]>([]) *)
  st_filter : string;            (* const [filter, setFilter] = useState("") *)
  st_fileredList : list value;   (* const [fileredList, setFileredList] = useState<string[]>([]) *)
  st_inputValue : string         (* const [inputValue, setInputValue] = useState<string>("") *)
}.

Definition initial_state : State :=
  {| st_list := []; st_filter := ""; st_fileredList := []; st_inputValue := "" |}.

Definition with_list (l : list value) (s : State) : State :=
  {| st_list := l; st_filter := st_filter s;
     st_fileredList := st_fileredList s; st_inputValue := st_inputValue s |}.

Definition with_filter (f : string) (s : State) : State :=
  {| st_list := st_list s; st_filter := f;
     st_fileredList := st_fileredList s; st_inputValue := st_inputValue s |}.

Definition with_fileredList (l : list value) (s : State) : State :=
  {| st_list := st_list s; st_filter := st_filter s;
     st_fileredList := l; st_inputValue := st_inputValue s |}.

Definition with_inputValue (v : string) (s : State) : State :=
  {| st_list := st_list s; st_filter := st_filter s;
     st_fileredList := st_fileredList s; st_inputValue := v |}.

(** What the component writes to the console. *)
Inductive console_event : Type :=
| ConsoleLog (message : string)
| ConsoleError (message : string) (err : error).

(** ** The world around the component

    Besides the cells: whether the component is still mounted, the requests
    in flight (request number to URL), the lines that the component's own
    code has written to the console, and the exceptions that nothing
    caught. *)

Record World : Type := mkWorld {
  cells : State;
  mounted : bool;
  pending : gmap nat string;
  next_request : nat;
  console : list console_event;
  uncaught : list error
}.

Definition set_cells (s : State) (w : World) : World :=
  {| cells := s; mounted := mounted w; pending := pending w;
     next_request := next_request w; console := console w; uncaught := uncaught w |}.

Definition write_console (ev : console_event) (w : World) : World :=
  {| cells := cells w; mounted := mounted w; pending := pending w;
     next_request := next_request w; console := console w ++ [ev]; uncaught := uncaught w |}.

(** An exception thrown while rendering or inside an effect has no handler
    and no error boundary above it: React unmounts the tree. *)
Definition crash (e : error) (w : World) : World :=
  {| cells := cells w; mounted := false; pending := pending w;
     next_request := next_request w; console := console w; uncaught := uncaught w ++ [e] |}.

(** [fetch(url)]: one more request in flight. *)
Definition fetch (url : string) (w : World) : World :=
  {| cells := cells w; mounted := mounted w;
     pending := <[next_request w := url]> (pending w);
     next_request := S (next_request w); console := console w; uncaught := uncaught w |}.

(** The promise of request [rid] has settled. *)
Definition settled (rid : nat) (w : World) : World :=
  {| cells := cells w; mounted := mounted w; pending := delete rid (pending w);
     next_request := next_request w; console := console w; uncaught := uncaught w |}.

Definition when_mounted (f : World → World) (w : World) : World :=
  if mounted w then f w else w.

(** ** Rendering

    The JSX shows [fileredList] only when [filter] is truthy (a non-empty
    string) and [list] always, each item as the child of an [<li>]. *)
Definition render (s : State) : bool :=
  (if String.eqb (st_filter s) "" then true else forallb renderable (st_fileredList s))
  && forallb renderable (st_list s).

(** A re-render with the next state: committed if rendering succeeds. *)
Definition rerender (s : State) (w : World) : World :=
  if render s then set_cells s w else crash InvalidChild w.

(** ** The source's functions *)

Definition toWarnAPI (w : World) : World :=
  write_console (ConsoleLog "Lista salva!") w.

(** First effect, dependencies [[list]]. *)
Definition effect_notify (w : World) : World :=
  if negb (Nat.eqb (length (st_list (cells w))) 0) then toWarnAPI w else w.

Definition repos_url (user : string) : string :=
  "https://api.github.com/users/" +:+ user +:+ "/repos".

(** Second effect, dependencies [[inputValue]]. *)
Definition effect_fetch (w : World) : World :=
  if negb (String.eqb (st_inputValue (cells w)) "")
  then fetch (repos_url (st_inputValue (cells w))) w
  else w.

(** [setFileredList]: the array is a fresh one, so the component renders
    again; no effect depends on [fileredList]. *)
Definition setFileredList (l : list value) (w : World) : World :=
  when_mounted (rerender (with_fileredList l (cells w))) w.

(** Third effect, dependencies [[filter, list]]. *)
Definition effect_filter (w : World) : World :=
  match array_filter (item_includes (st_filter (cells w))) (st_list (cells w)) with
  | inr l => setFileredList l w
  | inl e => crash e w
  end.

(** [setList] always receives a fresh array ([data.map(...)] or a spread),
    so the component renders again and the two effects that depend on
    [list] run, in the order of their declaration.  A state setter of an
    unmounted component does nothing. *)
Definition setList (l : list value) (w : World) : World :=
  when_mounted (λ w,
    when_mounted (λ w, effect_filter (effect_notify w))
                 (rerender (with_list l (cells w)) w)) w.

(** [setFilter] and [setInputValue] receive strings: an update to an equal
    string (Object.is) is dropped, otherwise the effect that depends on the
    cell runs after the re-render. *)
Definition setFilter (v : string) (w : World) : World :=
  when_mounted (λ w,
    if String.eqb v (st_filter (cells w)) then w
    else when_mounted effect_filter (rerender (with_filter v (cells w)) w)) w.

Definition setInputValue (v : string) (w : World) : World :=
  when_mounted (λ w,
    if String.eqb v (st_inputValue (cells w)) then w
    else when_mounted effect_fetch (rerender (with_inputValue v (cells w)) w)) w.

(** [addToList]: [setList((state) => [...state, "Novo item"])]. *)
Definition addToList (w : World) : World :=
  setList ((λ state, state ++ [Str "Novo item"]) (st_list (cells w))) w.

Definition handleChangeInput (v : string) (w : World) : World :=
  setInputValue v w.

(** How a request ends: [fetch] rejects with a reason, or a response
    arrives, with a status and with what [response.json()] settles to (the
    parsed body, or the error it rejects with). *)
Inductive outcome : Type :=
| Rejected (reason : error)
| Responded (status : nat) (json : result value).

Definition fetch_result (o : outcome) : result (nat * result value) :=
  match o with
  | Rejected reason => throw reason
  | Responded status json => ok (status, json)
  end.

(** [response.json()]; the status of the response is never looked at. *)
Definition response_json (response : nat * result value) : result value :=
  response.2.

(** The promise chain
    [fetch(..).then(response => response.json()).then(data => setList(data.map(..))).catch(..)]
    once the request has settled with [o]. *)
Definition on_settled (o : outcome) (w : World) : World :=
  match response ← fetch_result o; data ← response_json response; extract_names data with
  | inr names => setList names w
  | inl e => write_console (ConsoleError "Erro ao buscar repositórios:" e) w
  end.

(** ** Events and transitions *)

Inductive event : Type :=
| ChangeInput (v : string)             (* onChange of the GitHub user input *)
| ChangeFilter (v : string)            (* onChange of the keyword input *)
| ClickAdd                             (* onClick of the button *)
| Settle (rid : nat) (o : outcome).    (* request [rid] settles *)

Definition step (w : World) (e : event) : World :=
  match e with
  | ChangeInput v => handleChangeInput v w
  | ChangeFilter v => setFilter v w
  | ClickAdd => addToList w
  | Settle rid o =>
      match pending w !! rid with
      | Some _ => on_settled o (settled rid w)
      | None => w
      end
  end.

Definition run (w : World) (evs : list event) : World := foldl step w evs.

(** Mounting: the first render with the initial cells, then all three
    effects in order. *)
Definition mount : World :=
  effect_filter (effect_fetch (effect_notify
    {| cells := initial_state; mounted := true; pending := ∅;
       next_request := 0; console := []; uncaught := [] |})).

(** The observable of the Change Notifier: how often it has fired. *)
Definition is_notification (ev : console_event) : bool :=
  match ev with
  | ConsoleLog _ => true
  | ConsoleError _ _ => false
  end.

Definition notifications (w : World) : nat :=
  length (List.filter is_notification (console w)).

(** The text of a console line, and whether it mentions an identifier. *)
Definition console_text (ev : console_event) : string :=
  match ev with
  | ConsoleLog m => m
  | ConsoleError m e => m +:+ " " +:+ error_message e
  end.

Definition mentions (identifier : string) (ev : console_event) : bool :=
  includes (console_text ev) identifier.

(** A response whose body is the JSON array of one record per name. *)
Definition record_of (name : string) : value := Obj [("full_name", Str name)].
Definition repos (names : list string) : outcome :=
  Responded 200 (ok (Arr (record_of <$> names))).

(** ** The specification's vocabulary

    [contains_substring f x]: the filter text [f] occurs in [x] as a
    contiguous substring.  [subsequence_where P L R]: [R] is exactly the
    elements of [L] that satisfy [P], in the order they have in [L]. *)

Definition contains_substring (f x : string) : Prop :=
  ∃ pre post, x = pre +:+ f +:+ post.

Inductive subsequence_where (P : string → Prop) : list string → list string → Prop :=
| sw_nil : subsequence_where P [] []
| sw_keep x L R : P x → subsequence_where P L R → subsequence_where P (x :: L) (x :: R)
| sw_drop x L R : ¬ P x → subsequence_where P L R → subsequence_where P (x :: L) R.

(** The derived view is consistent with the cells it is derived from. *)
Definition view_consistent (w : World) : Prop :=
  mounted w = true →
  array_filter (item_includes (st_filter (cells w))) (st_list (cells w))
  = inr (st_fileredList (cells w)).

(** A record of the response that carries the name [n] in its field
    [full_name], whatever its other fields are. *)
Definition has_full_name (item : value) (n : string) : Prop :=
  ∃ props, item = Obj props ∧ get_prop "full_name" props = Some (Str n).

Definition is_array (v : value) : bool :=
  match v with
  | Arr _ => true
  | _ => false
  end.

Definition nullish (v : value) : bool :=
  match v with
  | Undefined | Null => true
  | _ => false
  end.

(** A request that fails: transport error, a body that is not JSON, or a
    JSON body that is not an array (GitHub's error object of a 404). *)
Definition failed (o : outcome) : Prop :=
  match o with
  | Rejected _ => True
  | Responded _ (inl _) => True
  | Responded _ (inr data) => is_array data = false
  end.

(** A JSON body from which no names can be extracted: not an array, or an
    array with a [null] among its elements. *)
Definition not_extractable (data : value) : Prop :=
  match data with
  | Arr items => ∃ item, item ∈ items ∧ nullish item = true
  | _ => True
  end.

(** Whatever a mounted component lists can be rendered. *)
Definition list_renderable (w : World) : Prop :=
  mounted w = true → forallb renderable (st_list (cells w)) = true.

(** A world that the event loop can reach from the mounted component. *)
Definition reachable (w : World) : Prop := ∃ evs, run mount evs = w.

(** The effect of a committed [setList l]: the cells after the two effects
    that depend on [list] have run, and the notifier's line on the console
    when [l] is not empty. *)
Definition list_committed (l view : list value) (w : World) : World :=
  {| cells := with_fileredList view (with_list l (cells w));
     mounted := true; pending := pending w; next_request := next_request w;
     console := console w ++ (if l is [] then [] else [ConsoleLog "Lista salva!"]);
     uncaught := uncaught w |}.

(** ** What the component returns

    The element tree that [Section] returns, as the JSX builds it: an
    element has a tag, a key, its props and its children; [{item}] is a
    child that is a run-time value; [xs.map(...)] is one child that is an
    array of elements.  A JSX comment [{/* ... */}] yields no child; the
    blank between [{item}] and the comment that follows it on the same line
    is a text child. *)

Inductive handler : Type :=
| OnChangeInput      (* onChange={handleChangeInput} *)
| OnChangeFilter     (* onChange={(e) => setFilter(e.target.value)} *)
| OnClickAdd.        (* onClick={addToList} *)

Inductive prop : Type :=
| PStr (s : string)
| PHandler (h : handler).

#[warnings="-register-all"]
Inductive node : Type :=
| Text (s : string)
| Expr (v : value)
| Many (items : list node)
| Element (tag : string) (key : option nat) (props : list (string * prop))
          (children : list node).

(** The [<li>] of one item, the same in both lists. *)
Definition li (index : nat) (item : value) : node :=
  Element "li" (Some index)
    [("className", PStr "border border-zinc-300 rounded-md my-2 hover:bg-violet-600 hover:text-zinc-950 hover:font-bold px-2")]
    [Expr item; Text " "].

(** [return ( <div className="space-y-5"> ... </div> )]. *)
Definition view (s : State) : node :=
  Element "div" None [("className", PStr "space-y-5")]
    [ Element "h1" None [] [Text "useEffect | React Hook"];
      Element "input" None
        [("type", PStr "text"); ("value", PStr (st_inputValue s));
         ("onChange", PHandler OnChangeInput);
         ("className", PStr "p-2 rounded-md w-full");
         ("placeholder", PStr "Escolha o Usuário do GitHub")] [];
      Element "h2" None [] [Text "Filtro da API do GitHub | Repositórios"];
      Element "input" None
        [("type", PStr "text"); ("onChange", PHandler OnChangeFilter);
         ("value", PStr (st_filter s));
         ("className", PStr "p-2 rounded-md w-full");
         ("placeholder", PStr "Palavra chave")] [];
      (if negb (String.eqb (st_filter s) "")
       then Element "ul" None [] [Many (imap li (st_fileredList s))]
       else Element "p" None []
              [Text "Digite uma palavra-chave para filtrar os repositórios."]);
      Element "h2" None [] [Text "Listando os 20 primeiros repositórios do Usuário"];
      Element "ul" None [] [Many (imap li (st_list s))];
      Element "button" None [("onClick", PHandler OnClickAdd)] [Text "Add to list"] ].

(** Queries on a tree, in document order: the values embedded as
    children, the elements with a given tag, and the keys of these. *)
Fixpoint exprs (n : node) : list value :=
  match n with
  | Text _ => []
  | Expr v => [v]
  | Many items => flat_map exprs items
  | Element _ _ _ children => flat_map exprs children
  end.

Fixpoint elements (t : string) (n : node) : list node :=
  match n with
  | Text _ | Expr _ => []
  | Many items => flat_map (elements t) items
  | Element tag _ _ children =>
      (if String.eqb tag t then [n] else []) ++ flat_map (elements t) children
  end.

Definition key_of (n : node) : option nat :=
  match n with
  | Element _ key _ _ => key
  | _ => None
  end.

(** React accepts a tree when every value embedded as a child is
    renderable. *)
Fixpoint valid (n : node) : bool :=
  match n with
  | Text _ => true
  | Expr v => renderable v
  | Many items => forallb valid items
  | Element _ _ _ children => forallb valid children
  end.

(** ** More vocabulary for the properties below *)

(** A value on which [item.includes] can be called: a string or an array. *)
Definition filterable (v : value) : bool :=
  match v with
  | Str _ | Arr _ => true
  | _ => false
  end.

(** A value the component can both render and filter. *)
Definition displayable (v : value) : bool :=
  match v with
  | Str _ => true
  | Arr items => forallb renderable items
  | _ => false
  end.

(** What [item.full_name] is for an item that is neither [null] nor
    [undefined]. *)
Definition full_name_or_undefined (item : value) : value :=
  match item with
  | Obj props => default Undefined (get_prop "full_name" props)
  | _ => Undefined
  end.

(** The events of the user, as opposed to the settling of a request. *)
Definition user_event (e : event) : bool :=
  match e with
  | Settle _ _ => false
  | _ => true
  end.

(** Request numbers in flight are below the next number to be given. *)
Definition requests_numbered (w : World) : Prop :=
  ∀ rid url, pending w !! rid = Some url → rid < next_request w.

(** ** Examples *)

Example mount_settled :
  cells mount = initial_state ∧ mounted mount = true ∧ console mount = [].
Proof. done. Qed.

Example alice_then_filter :
  let w := run mount [ChangeInput "alice"; Settle 0 (repos ["alice/app"; "alice/web"]);
                      ChangeFilter "web"; ClickAdd] in
  st_list (cells w) = [Str "alice/app"; Str "alice/web"; Str "Novo item"]
  ∧ st_fileredList (cells w) = [Str "alice/web"]
  ∧ notifications w = 2 ∧ pending w = ∅.
Proof. vm_compute. done. Qed.

(** ** Substring search *)

Lemma starts_with_spec s f : starts_with s f = true ↔ ∃ post, s = f +:+ post.
Proof.
  revert s. induction f as [|c f IH]; intros s; simpl.
  - split; [intros _; by exists s | done].
  - destruct s as [|d s].
    + split; [done | intros [post H]; discriminate].
    + destruct (Ascii.eqb_spec c d) as [->|Hne].
      * rewrite IH. split; intros [post H]; exists post; [by rewrite H | by injection H].
      * split; [done | intros [post H]; injection H; congruence].
Qed.

Lemma includes_spec s f : includes s f = true ↔ contains_substring f s.
Proof.
  unfold contains_substring. induction s as [|d s IH]; simpl.
  - destruct (starts_with "" f) eqn:Hs.
    + apply starts_with_spec in Hs as [post H].
      split; [intros _; exists "", post; done | done].
    + split; [done|]. intros ([|? pre] & post & H); [|discriminate].
      simpl in H. assert (starts_with "" f = true) by (apply starts_with_spec; eauto).
      congruence.
  - destruct (starts_with (String d s) f) eqn:Hs.
    + apply starts_with_spec in Hs as [post H].
      split; [intros _; exists "", post; done | done].
    + rewrite IH. split.
      * intros (pre & post & ->). by exists (String d pre), post.
      * intros ([|c pre] & post & H); simpl in H.
        -- assert (starts_with (String d s) f = true) by (apply starts_with_spec; eauto).
           congruence.
        -- injection H as _ ->. eauto.
Qed.

Lemma includes_empty s : includes s "" = true.
Proof. by destruct s. Qed.

Lemma filter_includes_empty (L : list string) :
  List.filter (λ x, includes x "") L = L.
Proof.
  induction L as [|x L IH]; [done|]. simpl. by rewrite includes_empty, IH.
Qed.

Lemma filter_includes_subsequence f (L : list string) :
  subsequence_where (contains_substring f) L (List.filter (λ x, includes x f) L).
Proof.
  induction L as [|x L IH]; simpl; [constructor|].
  destruct (includes x f) eqn:Hx.
  - apply sw_keep; [by apply includes_spec | done].
  - apply sw_drop; [|done]. rewrite <- includes_spec. congruence.
Qed.

Lemma subsequence_where_unique P L R1 R2 :
  subsequence_where P L R1 → subsequence_where P L R2 → R1 = R2.
Proof.
  intros H1. revert R2. induction H1; inversion 1; subst; try done.
  - f_equal. eauto.
  - eauto.
Qed.

(** The third effect's computation on an array of strings. *)
Lemma array_filter_strings f (L : list string) :
  array_filter (item_includes f) (Str <$> L)
  = inr (Str <$> List.filter (λ x, includes x f) L).
Proof.
  induction L as [|x L IH]; [done|].
  rewrite fmap_cons. simpl. rewrite IH. simpl. by destruct (includes x f).
Qed.

(** ** The derived view is an invariant of the event loop *)

Ltac unfold_component :=
  unfold step, handleChangeInput, addToList, on_settled, setInputValue, setFilter,
    setList, effect_filter, setFileredList, effect_fetch, effect_notify, toWarnAPI,
    when_mounted, rerender, fetch, settled, crash, write_console, set_cells in *.

Ltac component_cases :=
  unfold_component; simpl in *;
  repeat (case_match; simpl in *; simplify_eq; try done);
  try (intros; simplify_eq; congruence);
  try (intros; simplify_eq; auto; fail).

Lemma view_effect_filter w : view_consistent (effect_filter w).
Proof. unfold view_consistent. component_cases. Qed.

Lemma view_effect_notify w : view_consistent w → view_consistent (effect_notify w).
Proof. unfold view_consistent. component_cases. Qed.

Lemma view_setList l w : view_consistent w → view_consistent (setList l w).
Proof. unfold view_consistent. component_cases. Qed.

Lemma view_setFilter v w : view_consistent w → view_consistent (setFilter v w).
Proof. unfold view_consistent. component_cases. Qed.

Lemma view_setInputValue v w : view_consistent w → view_consistent (setInputValue v w).
Proof. unfold view_consistent. component_cases. Qed.

Lemma view_step w e : view_consistent w → view_consistent (step w e).
Proof.
  intros Hw. destruct e as [v|v| |rid o]; simpl.
  - by apply view_setInputValue.
  - by apply view_setFilter.
  - by apply view_setList.
  - destruct (pending w !! rid); [|done].
    assert (view_consistent (settled rid w)) as Hs by done.
    unfold on_settled. case_match; [|by apply view_setList].
    unfold view_consistent in *. done.
Qed.

Lemma view_run evs : ∀ w, view_consistent w → view_consistent (run w evs).
Proof.
  induction evs as [|e evs IH]; intros w Hw; [done|].
  simpl. apply IH. by apply view_step.
Qed.

Lemma view_mount : view_consistent mount.
Proof. done. Qed.

(** ** What is on screen can be rendered *)

Lemma renderable_strings (L : list string) : forallb renderable (Str <$> L) = true.
Proof. induction L as [|x L IH]; [done|]. by rewrite fmap_cons. Qed.

Lemma array_filter_renderable p l view :
  array_filter p l = inr view →
  forallb renderable l = true → forallb renderable view = true.
Proof.
  revert view. induction l as [|x l IH]; intros view; simpl.
  - by intros [= <-].
  - destruct (p x) as [e|b]; simpl; [done|].
    destruct (array_filter p l) as [e|ys]; simpl; [done|].
    intros [= <-] [Hx Hl]%andb_prop.
    specialize (IH ys eq_refl Hl). destruct b; simpl; [by rewrite Hx|done].
Qed.

Lemma render_list_ok s : render s = true → forallb renderable (st_list s) = true.
Proof. unfold render. by intros [_ ?]%andb_prop. Qed.

Lemma list_renderable_step w e : list_renderable w → list_renderable (step w e).
Proof.
  unfold list_renderable. intros Hw. destruct e as [v|v| |rid o].
  all: component_cases.
  all: try (intros _; match goal with H : render _ = true |- _ =>
                        apply render_list_ok in H; apply H end).
Qed.

Lemma list_renderable_run evs : ∀ w, list_renderable w → list_renderable (run w evs).
Proof.
  induction evs as [|e evs IH]; intros w Hw; [done|].
  simpl. apply IH. by apply list_renderable_step.
Qed.

(** Every reachable world that is still mounted shows a consistent view
    and holds nothing that cannot be rendered. *)
Lemma reachable_healthy w :
  reachable w → mounted w = true →
  forallb renderable (st_list (cells w)) = true
  ∧ forallb renderable (st_fileredList (cells w)) = true
  ∧ array_filter (item_includes (st_filter (cells w))) (st_list (cells w))
    = inr (st_fileredList (cells w)).
Proof.
  intros [evs <-] Hm.
  assert (forallb renderable (st_list (cells (run mount evs))) = true) as Hl
    by (by apply (list_renderable_run evs mount)).
  pose proof (view_run evs mount view_mount Hm) as Hv.
  eauto using array_filter_renderable.
Qed.

Lemma reachable_step w e : reachable w → reachable (step w e).
Proof.
  intros [evs <-]. exists (evs ++ [e]). unfold run. by rewrite foldl_app.
Qed.

(** The third effect on a mounted component whose list can be filtered. *)
Lemma effect_filter_ok view w :
  mounted w = true →
  forallb renderable (st_list (cells w)) = true →
  array_filter (item_includes (st_filter (cells w))) (st_list (cells w)) = inr view →
  effect_filter w = set_cells (with_fileredList view (cells w)) w.
Proof.
  intros Hm Hl Hview.
  assert (forallb renderable view = true) as Hnew
    by eauto using array_filter_renderable.
  unfold effect_filter, setFileredList, when_mounted, rerender, render.
  rewrite Hview, Hm. simpl. rewrite Hnew, Hl.
  by destruct (st_filter (cells w) =? "")%string.
Qed.

(** [setList l] on a mounted component whose next render succeeds. *)
Lemma setList_commits l view w :
  mounted w = true →
  forallb renderable l = true →
  forallb renderable (st_fileredList (cells w)) = true →
  array_filter (item_includes (st_filter (cells w))) l = inr view →
  setList l w = list_committed l view w.
Proof.
  intros Hm Hl Hold Hview.
  unfold setList, when_mounted, rerender, render. rewrite Hm. simpl.
  rewrite Hl, Hold.
  replace ((if (st_filter (cells w) =? "")%string then true else true) && true)
    with true by (by destruct (st_filter (cells w) =? "")%string).
  simpl. rewrite Hm.
  rewrite (effect_filter_ok view).
  - unfold list_committed, effect_notify, toWarnAPI, set_cells, write_console. simpl.
    rewrite Hm. destruct l; simpl; [|done]. by rewrite app_nil_r.
  - unfold effect_notify. by case_match.
  - unfold effect_notify. by case_match.
  - unfold effect_notify. by case_match.
Qed.

(** ** The filtered view (C1) *)

(** Any list of names and any filter text can be on screen: load the list
    with one request, then type the filter. *)
Lemma every_list_and_filter_reachable (L : list string) (f : string) :
  ∃ w, reachable w ∧ mounted w = true
       ∧ st_list (cells w) = Str <$> L ∧ st_filter (cells w) = f.
Proof.
  set (w1 := run mount [ChangeInput "u"]).
  assert (reachable w1) as Hr1 by (by eexists).
  set (w2 := step w1 (Settle 0 (repos L))).
  assert (w2 = list_committed (Str <$> L) (Str <$> L) (settled 0 w1)) as Hw2.
  { unfold w2. simpl. unfold on_settled. simpl.
    assert (array_map full_name (record_of <$> L) = inr (Str <$> L)) as ->.
    { induction L as [|x L IH]; [done|]. rewrite !fmap_cons. simpl. by rewrite IH. }
    apply setList_commits; try done; [apply renderable_strings|].
    simpl. rewrite array_filter_strings. by rewrite filter_includes_empty. }
  assert (reachable w2) as Hr2 by (by apply reachable_step).
  destruct (String.eqb_spec f "") as [->|Hf].
  { exists w2. split; [done|]. by rewrite Hw2. }
  exists (step w2 (ChangeFilter f)). split; [by apply reachable_step|].
  rewrite Hw2. simpl. unfold setFilter, when_mounted. simpl.
  rewrite (proj2 (String.eqb_neq f "") Hf).
  unfold rerender, render. simpl. rewrite !renderable_strings. simpl.
  rewrite (proj2 (String.eqb_neq f "") Hf). simpl.
  rewrite (effect_filter_ok (Str <$> List.filter (λ x, includes x f) L));
    simpl; auto using renderable_strings, array_filter_strings.
Qed.

(** C1. In every world the event loop reaches (the component still being
    mounted), if the list holds the names [L], then the filtered list holds
    exactly the elements of [L] that contain the filter text as a
    contiguous substring, in the order of [L]; with the empty filter text
    the filtered list is the whole list. *)
Theorem filtered_list_is_matching_subsequence (evs : list event) (L : list string) :
  mounted (run mount evs) = true →
  st_list (cells (run mount evs)) = Str <$> L →
  ∃ R, st_fileredList (cells (run mount evs)) = Str <$> R
       ∧ subsequence_where (contains_substring (st_filter (cells (run mount evs)))) L R
       ∧ (st_filter (cells (run mount evs)) = ""
          → st_fileredList (cells (run mount evs)) = st_list (cells (run mount evs))).
Proof.
  intros Hm HL.
  pose proof (view_run evs mount view_mount Hm) as Hv.
  rewrite HL, array_filter_strings in Hv. injection Hv as Hv.
  exists (List.filter (λ x, includes x (st_filter (cells (run mount evs)))) L).
  split; [done|]. split; [apply filter_includes_subsequence|].
  intros Hf. rewrite <- Hv, HL, Hf. by rewrite filter_includes_empty.
Qed.

Lemma filtered_list_is_matching_subsequence_witness :
  let evs := [ChangeInput "alice"; Settle 0 (repos ["alice/app"; "alice/web"]);
              ChangeFilter "web"] in
  let L := ["alice/app"; "alice/web"] in
  mounted (run mount evs) = true
  ∧ st_list (cells (run mount evs)) = Str <$> L
  ∧ ∃ R, st_fileredList (cells (run mount evs)) = Str <$> R
         ∧ subsequence_where (contains_substring (st_filter (cells (run mount evs)))) L R
         ∧ (st_filter (cells (run mount evs)) = ""
            → st_fileredList (cells (run mount evs)) = st_list (cells (run mount evs))).
Proof.
  intros evs L. split; [reflexivity|]. split; [reflexivity|].
  apply (filtered_list_is_matching_subsequence evs L); reflexivity.
Defined.

(** ** Typing the same filter text twice (C8) *)

Lemma setFilter_records v w :
  mounted (setFilter v w) = true → st_filter (cells (setFilter v w)) = v.
Proof.
  unfold setFilter, when_mounted.
  destruct (mounted w) eqn:Hm; [|congruence].
  destruct (String.eqb_spec v (st_filter (cells w))) as [->|Hne]; [done|].
  component_cases.
Qed.

(** C8. For every filter text [f] and every world, handling
    [setFilterText(f)] twice in succession leaves the same filtered list
    (indeed the same world) as handling it once. *)
Theorem setFilterText_idempotent (w : World) (f : string) :
  step (step w (ChangeFilter f)) (ChangeFilter f) = step w (ChangeFilter f)
  ∧ st_fileredList (cells (step (step w (ChangeFilter f)) (ChangeFilter f)))
    = st_fileredList (cells (step w (ChangeFilter f))).
Proof.
  assert (step (step w (ChangeFilter f)) (ChangeFilter f) = step w (ChangeFilter f)) as H.
  { simpl. unfold setFilter at 1. unfold when_mounted.
    destruct (mounted (setFilter f w)) eqn:Hm; [|done].
    by rewrite (setFilter_records f w Hm), String.eqb_refl. }
  by rewrite H.
Qed.

(** ** The empty identifier (C5) *)

Lemma reachable_renders w : reachable w → mounted w = true → render (cells w) = true.
Proof.
  intros Hr Hm. destruct (reachable_healthy w Hr Hm) as (Hl & Hv & _).
  unfold render. rewrite Hl, Hv. by destruct (st_filter (cells w) =? "")%string.
Qed.

(** C5. In every world the event loop reaches, setting the source
    identifier to the empty string issues no request (the requests in
    flight and the request counter are as before), leaves the list exactly
    as it was, writes nothing to the console and raises nothing. *)
Theorem empty_identifier_is_noop (evs : list event) :
  pending (step (run mount evs) (ChangeInput "")) = pending (run mount evs)
  ∧ next_request (step (run mount evs) (ChangeInput "")) = next_request (run mount evs)
  ∧ st_list (cells (step (run mount evs) (ChangeInput ""))) = st_list (cells (run mount evs))
  ∧ console (step (run mount evs) (ChangeInput "")) = console (run mount evs)
  ∧ uncaught (step (run mount evs) (ChangeInput "")) = uncaught (run mount evs)
  ∧ mounted (step (run mount evs) (ChangeInput "")) = mounted (run mount evs).
Proof.
  assert (reachable (run mount evs)) as Hr by (by eexists).
  destruct (mounted (run mount evs)) eqn:Hm.
  - pose proof (reachable_renders _ Hr Hm) as Hrender.
    assert (render (with_inputValue "" (cells (run mount evs))) = true) by done.
    component_cases.
  - component_cases.
Qed.

(** ** Appending the placeholder (C6) *)

Lemma array_filter_snoc p l view x b :
  array_filter p l = inr view → p x = inr b →
  array_filter p (l ++ [x]) = inr (view ++ (if b then [x] else [])).
Proof.
  revert view. induction l as [|y l IH]; intros view; simpl.
  - intros [= <-] ->. simpl. by destruct b.
  - destruct (p y) as [e|c]; simpl; [done|].
    destruct (array_filter p l) as [e|ys]; simpl; [done|].
    intros [= <-] Hx. rewrite (IH ys eq_refl Hx). simpl. by destruct c.
Qed.

Lemma forallb_renderable_snoc l x :
  forallb renderable l = true → renderable x = true →
  forallb renderable (l ++ [x]) = true.
Proof. intros Hl Hx. rewrite forallb_app. simpl. by rewrite Hl, Hx. Qed.

(** C6. In every reachable world with the component mounted,
    [appendPlaceholder()] yields the former list with the literal
    ["Novo item"] appended at its end, all former elements kept in order,
    and the filtered list is recomputed against the new list: for a list of
    names [L] it is the sub-sequence of [L ++ ["Novo item"]] matching the
    (unchanged) filter text. *)
Theorem appendPlaceholder_appends (w : World) (L : list string) :
  reachable w → mounted w = true → st_list (cells w) = Str <$> L →
  st_list (cells (step w ClickAdd)) = Str <$> (L ++ ["Novo item"])
  ∧ st_filter (cells (step w ClickAdd)) = st_filter (cells w)
  ∧ mounted (step w ClickAdd) = true
  ∧ ∃ R, st_fileredList (cells (step w ClickAdd)) = Str <$> R
         ∧ subsequence_where (contains_substring (st_filter (cells w)))
                             (L ++ ["Novo item"]) R.
Proof.
  intros Hr Hm HL.
  destruct (reachable_healthy w Hr Hm) as (Hl & Hv & _).
  assert (step w ClickAdd
          = list_committed (Str <$> (L ++ ["Novo item"]))
              (Str <$> List.filter (λ x, includes x (st_filter (cells w)))
                                   (L ++ ["Novo item"])) w) as ->.
  { simpl. unfold addToList. rewrite HL.
    replace ((Str <$> L) ++ [Str "Novo item"]) with (Str <$> (L ++ ["Novo item"]))
      by (by rewrite fmap_app).
    apply setList_commits; auto using renderable_strings, array_filter_strings. }
  simpl. repeat split; try done.
  eexists. split; [done|]. apply filter_includes_subsequence.
Qed.

Lemma appendPlaceholder_appends_witness :
  let w := run mount [ChangeInput "u"; Settle 0 (repos ["a"; "b"]); ChangeFilter "o"] in
  reachable w ∧ mounted w = true ∧ st_list (cells w) = Str <$> ["a"; "b"]
  ∧ st_list (cells (step w ClickAdd)) = [Str "a"; Str "b"; Str "Novo item"]
  ∧ st_fileredList (cells (step w ClickAdd)) = [Str "Novo item"].
Proof.
  intros w.
  assert (reachable w) as Hr by (by eexists).
  destruct (appendPlaceholder_appends w ["a"; "b"] Hr eq_refl eq_refl) as (Hlist & _).
  split; [exact Hr|]. split; [reflexivity|]. split; [reflexivity|].
  split; [exact Hlist | reflexivity].
Defined.

(** The same for a list of arbitrary values: the placeholder goes to the
    end and the view stays consistent. *)
Lemma addToList_appends w :
  reachable w → mounted w = true →
  st_list (cells (step w ClickAdd)) = st_list (cells w) ++ [Str "Novo item"]
  ∧ mounted (step w ClickAdd) = true
  ∧ notifications (step w ClickAdd) = S (notifications w).
Proof.
  intros Hr Hm. destruct (reachable_healthy w Hr Hm) as (Hl & Hv & Hview).
  assert (step w ClickAdd
          = list_committed (st_list (cells w) ++ [Str "Novo item"])
              (st_fileredList (cells w)
               ++ (if includes "Novo item" (st_filter (cells w))
                   then [Str "Novo item"] else [])) w) as ->.
  { simpl. unfold addToList.
    apply setList_commits; auto using forallb_renderable_snoc.
    by apply array_filter_snoc. }
  simpl. split; [done|]. split; [done|]. unfold notifications. simpl.
  destruct (st_list (cells w)); simpl; rewrite List.filter_app, length_app; simpl; lia.
Qed.

(** ** Settling a request *)

Lemma settle_extracted w rid url status data names :
  pending w !! rid = Some url →
  extract_names data = inr names →
  step w (Settle rid (Responded status (inr data))) = setList names (settled rid w).
Proof. intros Hp Hn. simpl. rewrite Hp. unfold on_settled. simpl. by rewrite Hn. Qed.

Lemma settle_caught w rid url o e :
  pending w !! rid = Some url →
  (response ← fetch_result o; data ← response_json response; extract_names data) = inl e →
  step w (Settle rid o)
  = write_console (ConsoleError "Erro ao buscar repositórios:" e) (settled rid w).
Proof. intros Hp He. simpl. rewrite Hp. unfold on_settled. by rewrite He. Qed.

Lemma extract_records (items : list value) (names : list string) :
  Forall2 has_full_name items names →
  extract_names (Arr items) = inr (Str <$> names).
Proof.
  simpl. induction 1 as [|item n items names (props & -> & Hn) _ IH]; [done|].
  simpl. rewrite Hn, IH. done.
Qed.

Lemma extract_repos (L : list string) :
  extract_names (Arr (record_of <$> L)) = inr (Str <$> L).
Proof.
  apply extract_records. induction L as [|x L IH]; [constructor|].
  rewrite fmap_cons. constructor; [|done]. by eexists.
Qed.

(** A response that yields the names [L], on a mounted component. *)
Lemma settle_names w rid url status data (L : list string) :
  reachable w → mounted w = true →
  pending w !! rid = Some url →
  extract_names data = inr (Str <$> L) →
  step w (Settle rid (Responded status (inr data)))
  = list_committed (Str <$> L)
      (Str <$> List.filter (λ x, includes x (st_filter (cells w))) L)
      (settled rid w).
Proof.
  intros Hr Hm Hp Hn. destruct (reachable_healthy w Hr Hm) as (_ & Hv & _).
  rewrite (settle_extracted w rid url status data _ Hp Hn).
  apply setList_commits; auto using renderable_strings, array_filter_strings.
Qed.

(** ** A successful fetch replaces the list (C7) *)

(** C7. For every successful fetch whose response is a sequence of records,
    each with a name in its field [full_name], the list is replaced
    wholesale by these names in response order; the status and the other
    fields of the records have no influence: two such responses with the
    same names lead to the same world. *)
Theorem fetch_replaces_list_by_full_names
    (w : World) (rid : nat) (url : string) (names : list string)
    (status1 status2 : nat) (items1 items2 : list value) :
  reachable w → mounted w = true →
  pending w !! rid = Some url →
  Forall2 has_full_name items1 names →
  Forall2 has_full_name items2 names →
  st_list (cells (step w (Settle rid (Responded status1 (inr (Arr items1))))))
  = Str <$> names
  ∧ step w (Settle rid (Responded status1 (inr (Arr items1))))
    = step w (Settle rid (Responded status2 (inr (Arr items2)))).
Proof.
  intros Hr Hm Hp H1 H2.
  rewrite (settle_names w rid url status1 _ names), (settle_names w rid url status2 _ names);
    auto using extract_records.
Qed.

Lemma fetch_replaces_list_by_full_names_witness :
  let w := run mount [ClickAdd; ChangeInput "alice"] in
  let items1 := [Obj [("id", Num "1"); ("full_name", Str "alice/app")];
                 Obj [("full_name", Str "alice/web"); ("fork", Bool true)]] in
  let items2 := [record_of "alice/app"; record_of "alice/web"] in
  reachable w ∧ mounted w = true
  ∧ pending w !! 0 = Some (repos_url "alice")
  ∧ st_list (cells w) = [Str "Novo item"]
  ∧ st_list (cells (step w (Settle 0 (Responded 200 (inr (Arr items1))))))
    = [Str "alice/app"; Str "alice/web"]
  ∧ step w (Settle 0 (Responded 200 (inr (Arr items1))))
    = step w (Settle 0 (Responded 304 (inr (Arr items2)))).
Proof.
  intros w items1 items2.
  assert (reachable w) as Hr by (by eexists).
  assert (Forall2 has_full_name items1 ["alice/app"; "alice/web"]) as H1
    by (repeat constructor; by eexists).
  assert (Forall2 has_full_name items2 ["alice/app"; "alice/web"]) as H2
    by (repeat constructor; by eexists).
  split; [exact Hr|]. split; [reflexivity|]. split; [reflexivity|]. split; [reflexivity|].
  exact (fetch_replaces_list_by_full_names w 0 (repos_url "alice")
           ["alice/app"; "alice/web"] 200 304 items1 items2 Hr eq_refl eq_refl H1 H2).
Defined.

(** ** Two requests in flight (C2) *)

(** A new, non-empty identifier on a mounted component: the cell is
    updated and one request is issued for it. *)
Lemma new_identifier_fetches w v :
  reachable w → mounted w = true →
  v ≠ "" → v ≠ st_inputValue (cells w) →
  step w (ChangeInput v)
  = fetch (repos_url v) (set_cells (with_inputValue v (cells w)) w).
Proof.
  intros Hr Hm Hv Hne. pose proof (reachable_renders w Hr Hm) as Hrender.
  simpl. unfold handleChangeInput, setInputValue, when_mounted. rewrite Hm.
  rewrite (proj2 (String.eqb_neq _ _) Hne).
  unfold rerender. replace (render (with_inputValue v (cells w))) with true by done.
  simpl. rewrite Hm. unfold effect_fetch. simpl.
  by rewrite (proj2 (String.eqb_neq _ _) Hv).
Qed.

(** C2, as the code has it.  The component keeps no record of which
    identifier is current when a response arrives.  When the identifier
    changes to [A] and then to [B] (each a change to a new, non-empty
    identifier, so that each issues a request) and the result for [B]
    arrives before the result for [A], the list first becomes [B]'s result
    and is then overwritten by [A]'s, while the identifier cell still holds
    [B]: the response that arrives last wins. *)
Theorem last_response_wins (w : World) (A B : string) (LA LB : list string) :
  reachable w → mounted w = true →
  A ≠ "" → B ≠ "" → A ≠ st_inputValue (cells w) → B ≠ A →
  pending (run w [ChangeInput A; ChangeInput B]) !! next_request w = Some (repos_url A)
  ∧ pending (run w [ChangeInput A; ChangeInput B]) !! S (next_request w)
    = Some (repos_url B)
  ∧ st_inputValue (cells (run w [ChangeInput A; ChangeInput B;
                                 Settle (S (next_request w)) (repos LB);
                                 Settle (next_request w) (repos LA)])) = B
  ∧ st_list (cells (run w [ChangeInput A; ChangeInput B;
                           Settle (S (next_request w)) (repos LB)])) = Str <$> LB
  ∧ st_list (cells (run w [ChangeInput A; ChangeInput B;
                           Settle (S (next_request w)) (repos LB);
                           Settle (next_request w) (repos LA)])) = Str <$> LA.
Proof.
  intros Hr Hm HA HB HAw HBA. unfold run. cbn [foldl].
  pose proof (reachable_step w (ChangeInput A) Hr) as Hr1.
  rewrite (new_identifier_fetches w A Hr Hm HA HAw) in *.
  set (w1 := fetch (repos_url A) _) in *.
  pose proof (reachable_step w1 (ChangeInput B) Hr1) as Hr2.
  rewrite (new_identifier_fetches w1 B Hr1 Hm HB HBA) in *.
  set (w2 := fetch (repos_url B) _) in *.
  assert (pending w2 !! next_request w = Some (repos_url A)) as HpA.
  { simpl. rewrite lookup_insert_ne by lia. apply lookup_insert_eq. }
  assert (pending w2 !! S (next_request w) = Some (repos_url B)) as HpB.
  { simpl. apply lookup_insert_eq. }
  split; [done|]. split; [done|].
  pose proof (reachable_step w2 (Settle (S (next_request w)) (repos LB)) Hr2) as Hr3.
  unfold repos, ok in *.
  rewrite (settle_names w2 _ _ 200 _ LB Hr2 Hm HpB (extract_repos LB)) in *.
  set (w3 := list_committed _ _ _) in *.
  assert (pending w3 !! next_request w = Some (repos_url A)) as HpA3.
  { simpl. rewrite lookup_delete_ne by lia. exact HpA. }
  rewrite (settle_names w3 _ _ 200 _ LA Hr3 eq_refl HpA3 (extract_repos LA)).
  done.
Qed.

Lemma last_response_wins_witness :
  let w := run mount [ChangeInput "carol"; Settle 0 (repos ["carol/old"])] in
  reachable w ∧ mounted w = true ∧ st_inputValue (cells w) = "carol"
  ∧ st_list (cells (run w [ChangeInput "alice"; ChangeInput "bob";
                           Settle (S (next_request w)) (repos ["bob/site"]);
                           Settle (next_request w) (repos ["alice/app"; "alice/web"])]))
    = [Str "alice/app"; Str "alice/web"].
Proof.
  intros w.
  assert (reachable w) as Hr by (by eexists).
  split; [exact Hr|]. split; [reflexivity|]. split; [reflexivity|].
  apply (last_response_wins w "alice" "bob" ["alice/app"; "alice/web"] ["bob/site"] Hr);
    [reflexivity | discriminate | discriminate | discriminate | discriminate].
Defined.

(** The claim as the specification states it fails: for ["alice"] then
    ["bob"], with ["alice"]'s response arriving after ["bob"]'s, the list
    ends equal to alice's result, not bob's. *)
Lemma stale_alice_overwrites_bob :
  let requested := run mount [ChangeInput "alice"; ChangeInput "bob"] in
  let bob_arrived := step requested (Settle 1 (repos ["bob/site"])) in
  let alice_arrived := step bob_arrived (Settle 0 (repos ["alice/app"])) in
  pending requested !! 0 = Some (repos_url "alice")
  ∧ pending requested !! 1 = Some (repos_url "bob")
  ∧ st_inputValue (cells alice_arrived) = "bob"
  ∧ st_list (cells bob_arrived) = [Str "bob/site"]
  ∧ st_list (cells alice_arrived) = [Str "alice/app"]
  ∧ st_list (cells alice_arrived) ≠ st_list (cells bob_arrived).
Proof. vm_compute. repeat split; discriminate. Qed.

(** ** A failed fetch (C3) *)

(** C3, as the code has it.  For every request in flight that fails
    (transport error, a body that is not JSON, or a JSON body that is not
    an array, such as the error object of a 404; the status itself is never
    inspected), the cells, and so the list, are exactly as before, nothing
    is raised, and exactly one line is written to the console: the fixed
    message together with the underlying error.  The error is the one the
    request failed with, or a [TypeError] of the extraction; the identifier
    the request was issued for is not part of the report. *)
Theorem failed_fetch_reports_error_and_keeps_list
    (w : World) (rid : nat) (url : string) (o : outcome) :
  pending w !! rid = Some url →
  failed o →
  ∃ err,
    console (step w (Settle rid o))
    = console w ++ [ConsoleError "Erro ao buscar repositórios:" err]
    ∧ cells (step w (Settle rid o)) = cells w
    ∧ mounted (step w (Settle rid o)) = mounted w
    ∧ uncaught (step w (Settle rid o)) = uncaught w
    ∧ pending (step w (Settle rid o)) = delete rid (pending w)
    ∧ match o with
      | Rejected reason => err = reason
      | Responded _ (inl reason) => err = reason
      | Responded _ (inr _) => ∃ m, err = TypeError m
      end.
Proof.
  intros Hp Hf.
  assert (∃ err,
    (response ← fetch_result o; data ← response_json response; extract_names data)
    = inl err
    ∧ match o with
      | Rejected reason => err = reason
      | Responded _ (inl reason) => err = reason
      | Responded _ (inr _) => ∃ m, err = TypeError m
      end) as (err & Herr & Horigin).
  { destruct o as [reason|status [reason|data]]; simpl in *; eauto.
    destruct data; simpl in *; try discriminate; eauto. }
  exists err. by rewrite (settle_caught w rid url o err Hp Herr).
Qed.

Lemma failed_fetch_reports_error_and_keeps_list_witness :
  let w := run mount [ClickAdd; ChangeInput "ghost-user"] in
  let o := Responded 404 (inr (Obj [("message", Str "Not Found"); ("status", Str "404")])) in
  pending w !! 0 = Some (repos_url "ghost-user")
  ∧ failed o
  ∧ ∃ err,
      console (step w (Settle 0 o))
      = console w ++ [ConsoleError "Erro ao buscar repositórios:" err]
      ∧ cells (step w (Settle 0 o)) = cells w
      ∧ mounted (step w (Settle 0 o)) = mounted w
      ∧ uncaught (step w (Settle 0 o)) = uncaught w
      ∧ pending (step w (Settle 0 o)) = delete 0 (pending w)
      ∧ ∃ m, err = TypeError m.
Proof.
  intros w o. split; [reflexivity|]. split; [reflexivity|].
  apply (failed_fetch_reports_error_and_keeps_list w 0 (repos_url "ghost-user") o);
    reflexivity.
Defined.

(** The claim as the specification states it fails on the report: for the
    identifier ["ghost-user"] and GitHub's 404 error object, the list is
    kept and one line is written, but the line does not mention the
    identifier. *)
Lemma failure_report_omits_identifier :
  let w := run mount [ClickAdd; ChangeInput "ghost-user"] in
  let o := Responded 404 (inr (Obj [("message", Str "Not Found"); ("status", Str "404")])) in
  let report := ConsoleError "Erro ao buscar repositórios:"
                             (TypeError "data.map is not a function") in
  pending w !! 0 = Some (repos_url "ghost-user")
  ∧ st_list (cells (step w (Settle 0 o))) = st_list (cells w)
  ∧ console (step w (Settle 0 o)) = console w ++ [report]
  ∧ mentions "ghost-user" report = false.
Proof. vm_compute. done. Qed.

(** ** A body that is not an array of records (C9) *)

Lemma array_map_full_name_nullish items :
  (∃ item, item ∈ items ∧ nullish item = true) →
  ∃ m, array_map full_name items = inl (TypeError m).
Proof.
  intros (item & Hin & Hnull).
  induction items as [|x items IH]; [by apply elem_of_nil in Hin|].
  simpl. destruct x; simpl; eauto.
  all: apply elem_of_cons in Hin as [->|Hin]; [done|].
  all: destruct (IH Hin) as [m ->]; simpl; eauto.
Qed.

Lemma not_extractable_fails data :
  not_extractable data → ∃ m, extract_names data = inl (TypeError m).
Proof.
  destruct data; simpl; eauto using array_map_full_name_nullish.
Qed.

Lemma extract_fails_not_extractable data e :
  extract_names data = inl e → not_extractable data.
Proof.
  destruct data as [| | | | |items|]; simpl; try done.
  revert e. induction items as [|x items IH]; intros e; simpl; [done|].
  destruct x; simpl.
  1,2: intros _; eexists; split; [apply list_elem_of_here|done].
  all: destruct (array_map full_name items) as [e'|]; simpl; [|done].
  all: intros _; destruct (IH e' eq_refl) as (item & Hin & Hn).
  all: exists item; split; [by apply list_elem_of_further|done].
Qed.

(** C9, as the code has it.  If the JSON body of a response is not an
    array, or is an array with a [null] among its elements, the extraction
    throws, the error handler catches it (one line on the console) and the
    cells keep their values.  An array whose elements are not records does
    not make the extraction fail.  In every case the list after the
    response is either exactly the former list or exactly the whole array
    of extracted values, never a part of it. *)
Theorem extraction_failure_keeps_list
    (w : World) (rid : nat) (url : string) (status : nat) (data : value) :
  pending w !! rid = Some url →
  (not_extractable data →
   ∃ m, step w (Settle rid (Responded status (inr data)))
        = write_console (ConsoleError "Erro ao buscar repositórios:" (TypeError m))
                        (settled rid w))
  ∧ (st_list (cells (step w (Settle rid (Responded status (inr data)))))
     = st_list (cells w)
     ∨ extract_names data
       = inr (st_list (cells (step w (Settle rid (Responded status (inr data))))))).
Proof.
  intros Hp. split.
  - intros [m Hm]%not_extractable_fails. exists m.
    by apply (settle_caught w rid url).
  - destruct (extract_names data) as [e|names] eqn:Hn.
    + left. by rewrite (settle_caught w rid url _ e Hp).
    + rewrite (settle_extracted w rid url status data names Hp Hn).
      clear Hp Hn. component_cases; auto.
Qed.

Lemma extraction_failure_keeps_list_witness :
  let w := run mount [ClickAdd; ChangeInput "ghost-user"] in
  let data := Obj [("message", Str "Not Found"); ("status", Str "404")] in
  pending w !! 0 = Some (repos_url "ghost-user")
  ∧ not_extractable data
  ∧ (∃ m, step w (Settle 0 (Responded 404 (inr data)))
          = write_console (ConsoleError "Erro ao buscar repositórios:" (TypeError m))
                          (settled 0 w))
  ∧ (st_list (cells (step w (Settle 0 (Responded 404 (inr data))))) = st_list (cells w)
     ∨ extract_names data
       = inr (st_list (cells (step w (Settle 0 (Responded 404 (inr data))))))).
Proof.
  intros w data. split; [reflexivity|]. split; [exact I|].
  destruct (extraction_failure_keeps_list w 0 (repos_url "ghost-user") 404 data eq_refl)
    as [Hfail Hwhole].
  split; [exact (Hfail I) | exact Hwhole].
Defined.

(** The claim as stated fails for a body that is an array but not an array
    of records: the extraction does not fail, nothing is caught, and the
    list is replaced by one [undefined] per element (on which the filter
    effect then throws, unmounting the component). *)
Lemma array_of_non_records_replaces_list :
  let w := run mount [ClickAdd; ChangeInput "u"] in
  let w' := step w (Settle 0 (Responded 200 (inr (Arr [Num "1"; Str "x"])))) in
  st_list (cells w) = [Str "Novo item"]
  ∧ st_list (cells w') = [Undefined; Undefined]
  ∧ console w' = console w ++ [ConsoleLog "Lista salva!"]
  ∧ mounted w' = false
  ∧ uncaught w' = [TypeError "Cannot read properties of undefined (reading 'includes')"].
Proof. vm_compute. done. Qed.

(** ** The Change Notifier (C4, C10) *)

Lemma notifications_error w m e :
  notifications (write_console (ConsoleError m e) w) = notifications w.
Proof.
  unfold notifications. simpl. rewrite List.filter_app, length_app. simpl. lia.
Qed.

Lemma setFilter_console v w : console (setFilter v w) = console w.
Proof. component_cases. Qed.

Lemma setInputValue_console v w : console (setInputValue v w) = console w.
Proof. component_cases. Qed.

(** [setList l] writes to the console only when it commits a non-empty
    list, and then the notifier's line, once. *)
Lemma setList_console l w :
  console (setList l w) = console w
  ∨ (console (setList l w) = console w ++ [ConsoleLog "Lista salva!"]
     ∧ st_list (cells (setList l w)) = l ∧ l ≠ []).
Proof. destruct l; component_cases; auto. Qed.

Lemma setList_notifications l w :
  mounted w = true →
  forallb renderable l = true →
  forallb renderable (st_fileredList (cells w)) = true →
  notifications (setList l w) = notifications w + (if l is [] then 0 else 1).
Proof.
  intros Hm Hl Hold.
  assert (render (with_list l (cells w)) = true) as Hrender.
  { unfold render. simpl. rewrite Hl, Hold.
    by destruct (st_filter (cells w) =? "")%string. }
  unfold setList, when_mounted, rerender. rewrite Hm, Hrender. simpl. rewrite Hm.
  assert (∀ w', console (effect_filter w') = console w') as Hsame by (intros; component_cases).
  unfold notifications. rewrite Hsame. unfold effect_notify. simpl.
  destruct l; simpl; [lia|]. rewrite List.filter_app, length_app. simpl. lia.
Qed.

(** C10. The Change Notifier never fires while the list is empty: whatever
    the world and the event, if the list is empty once the event has been
    handled (also when it was not empty before), no notification was
    emitted. *)
Theorem notifier_silent_while_list_empty (w : World) (e : event) :
  st_list (cells (step w e)) = [] →
  notifications (step w e) = notifications w.
Proof.
  destruct e as [v|v| |rid o]; simpl.
  - intros _. unfold notifications, handleChangeInput. by rewrite setInputValue_console.
  - intros _. unfold notifications. by rewrite setFilter_console.
  - unfold addToList.
    destruct (setList_console (st_list (cells w) ++ [Str "Novo item"]) w)
      as [Hc|(_ & Hl & _)].
    + intros _. unfold notifications. by rewrite Hc.
    + rewrite Hl. by intros [_ ?]%app_eq_nil.
  - destruct (pending w !! rid); [|done]. unfold on_settled.
    destruct (_ ≫= _) as [err|names]; [intros _; by rewrite notifications_error|].
    destruct (setList_console names (settled rid w)) as [Hc|(_ & Hl & Hne)].
    + intros _. unfold notifications. by rewrite Hc.
    + rewrite Hl. congruence.
Qed.

Lemma notifier_silent_while_list_empty_witness :
  let w := run mount [ClickAdd; ChangeInput "u"] in
  st_list (cells w) = [Str "Novo item"]
  ∧ st_list (cells (step w (Settle 0 (repos [])))) = []
  ∧ notifications (step w (Settle 0 (repos []))) = notifications w.
Proof.
  intros w. split; [reflexivity|]. split; [reflexivity|].
  apply (notifier_silent_while_list_empty w (Settle 0 (repos []))). reflexivity.
Defined.

(** C4, as the code has it.  On a mounted component the Change Notifier
    fires exactly once per settled mutation that leaves a non-empty list,
    whether or not the length changed: once per placeholder append, once
    per fetch completion with a non-empty array of names, and not for a
    fetch completion with the empty array (whatever the list was before).
    It does not fire on a change of the filter text alone. *)
Theorem notifier_fires_once_per_nonempty_list
    (w : World) (rid : nat) (url : string) (status : nat) (data : value)
    (names : list value) (f : string) :
  reachable w → mounted w = true →
  pending w !! rid = Some url →
  extract_names data = inr names →
  forallb renderable names = true →
  notifications (step w ClickAdd) = S (notifications w)
  ∧ notifications (step w (Settle rid (Responded status (inr data))))
    = notifications w + (if names is [] then 0 else 1)
  ∧ notifications (step w (ChangeFilter f)) = notifications w.
Proof.
  intros Hr Hm Hp Hn Hnames.
  destruct (reachable_healthy w Hr Hm) as (_ & Hv & _).
  split; [by apply addToList_appends|]. split.
  - rewrite (settle_extracted w rid url status data names Hp Hn).
    by rewrite setList_notifications.
  - simpl. unfold notifications. by rewrite setFilter_console.
Qed.

Lemma notifier_fires_once_per_nonempty_list_witness :
  let w := run mount [ChangeInput "u"] in
  let data := Arr [record_of "x"] in
  reachable w ∧ mounted w = true
  ∧ pending w !! 0 = Some (repos_url "u")
  ∧ extract_names data = inr [Str "x"]
  ∧ st_list (cells w) = []
  ∧ st_list (cells (step w (Settle 0 (Responded 200 (inr data))))) = [Str "x"]
  ∧ notifications (step w ClickAdd) = S (notifications w)
  ∧ notifications (step w (Settle 0 (Responded 200 (inr data)))) = notifications w + 1
  ∧ notifications (step w (ChangeFilter "x")) = notifications w.
Proof.
  intros w data.
  assert (reachable w) as Hr by (by eexists).
  split; [exact Hr|]. do 5 (split; [reflexivity|]).
  exact (notifier_fires_once_per_nonempty_list w 0 (repos_url "u") 200 data [Str "x"] "x"
           Hr eq_refl eq_refl eq_refl eq_refl).
Defined.

(** The claim as the specification states it fails when the length changes
    to zero: a fetch that returns the empty array while the list holds one
    item changes the length from 1 to 0, and the notifier does not fire. *)
Lemma notifier_silent_on_change_to_empty :
  let w := run mount [ClickAdd; ChangeInput "u"] in
  let w' := step w (Settle 0 (repos [])) in
  length (st_list (cells w)) = 1
  ∧ length (st_list (cells w')) = 0
  ∧ notifications w' = notifications w.
Proof. vm_compute. done. Qed.

(** ** The element tree *)

Lemma exprs_items_from (f : nat → nat) (l : list value) :
  flat_map exprs (imap (λ i, li (f i)) l) = l.
Proof.
  revert f. induction l as [|x l IH]; intros f; [done|].
  simpl. f_equal. apply (IH (f ∘ S)).
Qed.

Lemma exprs_items (l : list value) : flat_map exprs (imap li l) = l.
Proof. apply (exprs_items_from id). Qed.

Lemma valid_items_from (f : nat → nat) (l : list value) :
  forallb valid (imap (λ i, li (f i)) l) = forallb renderable l.
Proof.
  revert f. induction l as [|x l IH]; intros f; [done|].
  simpl. rewrite andb_true_r. f_equal. apply (IH (f ∘ S)).
Qed.

Lemma valid_items (l : list value) : forallb valid (imap li l) = forallb renderable l.
Proof. apply (valid_items_from id). Qed.

Lemma elements_items_from t (f : nat → nat) (l : list value) :
  flat_map (elements t) (imap (λ i, li (f i)) l)
  = if String.eqb "li" t then imap (λ i, li (f i)) l else [].
Proof.
  destruct (String.eqb "li" t) eqn:Ht.
  all: revert f; induction l as [|x l IH]; intros f; [done|].
  all: rewrite imap_cons; cbn [flat_map]; unfold li at 1; cbn [elements].
  all: rewrite Ht; simpl; try f_equal; apply (IH (f ∘ S)).
Qed.

Lemma elements_items t (l : list value) :
  flat_map (elements t) (imap li l) = if String.eqb "li" t then imap li l else [].
Proof. apply (elements_items_from t id). Qed.

Lemma keys_items_from (k : nat) (l : list value) :
  key_of <$> imap (λ i, li (k + i)) l = Some <$> seq k (length l).
Proof.
  revert k. induction l as [|x l IH]; intros k; [done|].
  rewrite imap_cons, fmap_cons. cbn [length seq]. rewrite fmap_cons.
  f_equal; [simpl; f_equal; lia|]. rewrite <- (IH (S k)).
  f_equal. apply imap_ext. intros i y _. simpl. unfold li. do 2 f_equal. lia.
Qed.

Lemma keys_items (l : list value) : key_of <$> imap li l = Some <$> seq 0 (length l).
Proof. apply (keys_items_from 0). Qed.

Lemma exprs_view (s : State) :
  exprs (view s)
  = (if String.eqb (st_filter s) "" then [] else st_fileredList s) ++ st_list s.
Proof.
  unfold view. destruct (String.eqb (st_filter s) ""); simpl.
  all: by rewrite ?app_nil_r, ?exprs_items.
Qed.

(** X1.  The view shows, in document order, the filtered items (only when the
    filter text is not empty) and then the whole list; the hint paragraph
    stands in for the filtered items exactly when the filter text is
    empty, whatever the filtered list holds. *)
Theorem view_shows_filtered_then_list (s : State) :
  exprs (view s)
  = (if String.eqb (st_filter s) "" then [] else st_fileredList s) ++ st_list s
  ∧ elements "p" (view s)
    = (if String.eqb (st_filter s) ""
       then [Element "p" None []
               [Text "Digite uma palavra-chave para filtrar os repositórios."]]
       else [])
  ∧ length (elements "ul" (view s)) = (if String.eqb (st_filter s) "" then 1 else 2)
  ∧ length (elements "li" (view s))
    = (if String.eqb (st_filter s) "" then 0 else length (st_fileredList s))
      + length (st_list s).
Proof.
  split; [apply exprs_view|].
  unfold view. destruct (String.eqb (st_filter s) ""); simpl.
  all: rewrite ?app_nil_r, ?elements_items; simpl.
  all: rewrite ?app_nil_r, ?length_app, ?length_imap; done.
Qed.

(** X2.  Each [<li>] is keyed by the index of its item in its own list. *)
Theorem view_items_keyed_by_index (s : State) :
  key_of <$> elements "li" (view s)
  = (if String.eqb (st_filter s) "" then []
     else Some <$> seq 0 (length (st_fileredList s)))
    ++ (Some <$> seq 0 (length (st_list s))).
Proof.
  unfold view. destruct (String.eqb (st_filter s) ""); simpl.
  all: rewrite ?app_nil_r, ?elements_items; simpl.
  all: rewrite ?app_nil_r, ?fmap_app, ?keys_items; done.
Qed.

(** X3.  React accepts the tree of a state exactly when [render] says so: the
    values it rejects are the plain objects among the items on screen. *)
Theorem view_valid_iff_render (s : State) : valid (view s) = render s.
Proof.
  unfold view, render. destruct (String.eqb (st_filter s) ""); simpl.
  all: rewrite ?valid_items, ?andb_true_r; done.
Qed.

(** X4.  What the user sees for a list of names: the names that contain the
    filter text, in order (nothing when the filter text is empty), and
    below them all the names. *)
Theorem reachable_view_shows_matching_names (w : World) (L : list string) :
  reachable w → mounted w = true → st_list (cells w) = Str <$> L →
  ∃ R, subsequence_where (contains_substring (st_filter (cells w))) L R
       ∧ exprs (view (cells w))
         = (if String.eqb (st_filter (cells w)) "" then [] else Str <$> R)
           ++ (Str <$> L).
Proof.
  intros Hr Hm HL. destruct (reachable_healthy w Hr Hm) as (_ & _ & Hview).
  rewrite HL, array_filter_strings in Hview. injection Hview as Hview.
  eexists. split; [apply filter_includes_subsequence|].
  by rewrite exprs_view, <- Hview, HL.
Qed.

Lemma reachable_view_shows_matching_names_witness :
  let w := run mount [ChangeInput "alice"; Settle 0 (repos ["alice/app"; "alice/web"]);
                      ChangeFilter "web"] in
  reachable w ∧ mounted w = true
  ∧ st_list (cells w) = Str <$> ["alice/app"; "alice/web"]
  ∧ ∃ R, subsequence_where (contains_substring (st_filter (cells w)))
                           ["alice/app"; "alice/web"] R
         ∧ exprs (view (cells w))
           = (if String.eqb (st_filter (cells w)) "" then [] else Str <$> R)
             ++ (Str <$> ["alice/app"; "alice/web"]).
Proof.
  intros w. assert (reachable w) as Hr by (by eexists).
  split; [exact Hr|]. split; [reflexivity|]. split; [reflexivity|].
  exact (reachable_view_shows_matching_names w ["alice/app"; "alice/web"]
           Hr eq_refl eq_refl).
Defined.

(** ** When the component unmounts *)

Lemma array_filter_ok_filterable f l view :
  array_filter (item_includes f) l = inr view → forallb filterable l = true.
Proof.
  revert view. induction l as [|x l IH]; intros view; [done|]. simpl.
  destruct x; simpl; try done.
  all: destruct (array_filter (item_includes f) l) as [e|ys]; simpl; [done|].
  all: intros _; by apply (IH ys).
Qed.

Lemma filterable_array_filter f l :
  forallb filterable l = true → ∃ view, array_filter (item_includes f) l = inr view.
Proof.
  induction l as [|x l IH]; [by eexists|]. simpl.
  intros [Hx [ys ->]%IH]%andb_prop. destruct x; simpl in *; try done; eauto.
Qed.

Lemma displayable_split l :
  forallb displayable l = forallb renderable l && forallb filterable l.
Proof.
  induction l as [|x l IH]; [done|]. simpl. rewrite IH.
  destruct x; simpl;
    repeat match goal with
           | |- context [forallb ?f ?k] => destruct (forallb f k)
           end; done.
Qed.

(** [setList l] keeps the component mounted exactly when every item of
    [l] is displayable. *)
Lemma setList_mounted l w :
  mounted w = true →
  forallb renderable (st_fileredList (cells w)) = true →
  mounted (setList l w) = forallb displayable l
  ∧ length (uncaught (setList l w))
    = length (uncaught w) + (if forallb displayable l then 0 else 1).
Proof.
  intros Hm Hold. rewrite displayable_split.
  destruct (forallb renderable l) eqn:Hl; simpl.
  - destruct (array_filter (item_includes (st_filter (cells w))) l) as [e|view] eqn:Hf.
    + assert (forallb filterable l = false) as ->.
      { destruct (forallb filterable l) eqn:Hfl; [|done].
        destruct (filterable_array_filter (st_filter (cells w)) l Hfl); congruence. }
      assert (render (with_list l (cells w)) = true) as Hrender.
      { unfold render. simpl. rewrite Hl, Hold.
        by destruct (st_filter (cells w) =? "")%string. }
      unfold setList, when_mounted, rerender. rewrite Hm, Hrender. simpl. rewrite Hm.
      unfold effect_filter, effect_notify. destruct l; simpl in *; [done|].
      rewrite Hf. simpl. rewrite length_app. simpl. split; [done|lia].
    + rewrite (array_filter_ok_filterable _ _ _ Hf).
      rewrite (setList_commits l view w Hm Hl Hold Hf). simpl. split; [done|lia].
  - assert (render (with_list l (cells w)) = false) as Hrender.
    { unfold render. simpl. rewrite Hl. apply andb_false_r. }
    unfold setList, when_mounted, rerender. rewrite Hm, Hrender. simpl.
    rewrite length_app. simpl. split; [done|lia].
Qed.

(** X5.  A response from which names are extracted keeps the component
    mounted exactly when every extracted value is a string or an array
    without plain objects; otherwise (a record without [full_name], a
    number, an object as name) one exception goes uncaught and the
    component unmounts. *)
Theorem response_unmounts_unless_displayable
    (w : World) (rid : nat) (url : string) (status : nat) (data : value)
    (names : list value) :
  reachable w → mounted w = true →
  pending w !! rid = Some url →
  extract_names data = inr names →
  mounted (step w (Settle rid (Responded status (inr data)))) = forallb displayable names
  ∧ length (uncaught (step w (Settle rid (Responded status (inr data)))))
    = length (uncaught w) + (if forallb displayable names then 0 else 1).
Proof.
  intros Hr Hm Hp Hn. destruct (reachable_healthy w Hr Hm) as (_ & Hv & _).
  rewrite (settle_extracted w rid url status data names Hp Hn).
  by apply (setList_mounted names (settled rid w)).
Qed.

Lemma response_unmounts_unless_displayable_witness :
  let w := run mount [ChangeInput "u"] in
  let data := Arr [record_of "u/app"; Obj [("name", Str "web")]] in
  reachable w ∧ mounted w = true
  ∧ pending w !! 0 = Some (repos_url "u")
  ∧ extract_names data = inr [Str "u/app"; Undefined]
  ∧ mounted (step w (Settle 0 (Responded 200 (inr data)))) = false
  ∧ length (uncaught (step w (Settle 0 (Responded 200 (inr data))))) = 1.
Proof.
  intros w data. assert (reachable w) as Hr by (by eexists).
  split; [exact Hr|]. do 3 (split; [reflexivity|]).
  exact (response_unmounts_unless_displayable w 0 (repos_url "u") 200 data
           [Str "u/app"; Undefined] Hr eq_refl eq_refl eq_refl).
Defined.

(** A new filter text on a mounted component whose list can be filtered
    with it. *)
Lemma setFilter_commits v view w :
  reachable w → mounted w = true →
  array_filter (item_includes v) (st_list (cells w)) = inr view →
  step w (ChangeFilter v) = set_cells (with_fileredList view (with_filter v (cells w))) w.
Proof.
  intros Hr Hm Hview. destruct (reachable_healthy w Hr Hm) as (Hl & Hv & Hold).
  simpl. unfold setFilter, when_mounted. rewrite Hm.
  destruct (String.eqb_spec v (st_filter (cells w))) as [->|Hne].
  - rewrite Hold in Hview. injection Hview as <-.
    by destruct w as [[] ? ? ? ? ?].
  - assert (render (with_filter v (cells w)) = true) as Hrender.
    { unfold render. simpl. rewrite Hl, Hv. by destruct (v =? "")%string. }
    unfold rerender. rewrite Hrender. simpl. rewrite Hm.
    by rewrite (effect_filter_ok view).
Qed.

(** The placeholder on a mounted component. *)
Lemma addToList_commits w :
  reachable w → mounted w = true →
  step w ClickAdd
  = list_committed (st_list (cells w) ++ [Str "Novo item"])
      (st_fileredList (cells w)
       ++ (if includes "Novo item" (st_filter (cells w)) then [Str "Novo item"] else []))
      w.
Proof.
  intros Hr Hm. destruct (reachable_healthy w Hr Hm) as (Hl & Hv & Hview).
  simpl. unfold addToList.
  apply setList_commits; auto using forallb_renderable_snoc.
  by apply array_filter_snoc.
Qed.

(** X6.  No event of the user unmounts the component or lets an exception
    escape: typing in either input and clicking the button are safe in
    every world the event loop reaches. *)
Theorem user_events_never_unmount (w : World) (e : event) :
  reachable w → mounted w = true → user_event e = true →
  mounted (step w e) = true ∧ uncaught (step w e) = uncaught w.
Proof.
  intros Hr Hm He. destruct (reachable_healthy w Hr Hm) as (Hl & Hv & Hview).
  destruct e as [v|v| |rid o]; [| | |done].
  - pose proof (reachable_renders w Hr Hm) as Hrender.
    assert (render (with_inputValue v (cells w)) = true) by done.
    component_cases.
  - destruct (filterable_array_filter v (st_list (cells w))) as [view Hnew];
      [by eapply array_filter_ok_filterable|].
    by rewrite (setFilter_commits v view w Hr Hm Hnew).
  - by rewrite (addToList_commits w Hr Hm).
Qed.

Lemma user_events_never_unmount_witness :
  let w := run mount [ChangeInput "u"; Settle 0 (repos ["u/app"]); ClickAdd] in
  reachable w ∧ mounted w = true
  ∧ mounted (step w (ChangeFilter "zzz")) = true
  ∧ uncaught (step w (ChangeFilter "zzz")) = uncaught w.
Proof.
  intros w. assert (reachable w) as Hr by (by eexists).
  split; [exact Hr|]. split; [reflexivity|].
  exact (user_events_never_unmount w (ChangeFilter "zzz") Hr eq_refl eq_refl).
Defined.

(** ** What the inputs leave alone *)

(** X7.  Typing in either input never changes the list and never writes to the
    console.  Typing an identifier leaves the filter text and the filtered
    list alone; typing a filter text leaves the identifier alone and issues
    no request. *)
Theorem typing_leaves_list_and_console (w : World) (v : string) :
  st_list (cells (step w (ChangeInput v))) = st_list (cells w)
  ∧ st_filter (cells (step w (ChangeInput v))) = st_filter (cells w)
  ∧ st_fileredList (cells (step w (ChangeInput v))) = st_fileredList (cells w)
  ∧ console (step w (ChangeInput v)) = console w
  ∧ st_list (cells (step w (ChangeFilter v))) = st_list (cells w)
  ∧ st_inputValue (cells (step w (ChangeFilter v))) = st_inputValue (cells w)
  ∧ pending (step w (ChangeFilter v)) = pending w
  ∧ next_request (step w (ChangeFilter v)) = next_request w
  ∧ console (step w (ChangeFilter v)) = console w.
Proof. repeat split; component_cases. Qed.

(** ** The console *)

(** X8.  Every event writes at most one line to the console: nothing, or the
    notifier's line (and then the list is not empty), or the report of a
    failed request (and then the cells are as before); never both. *)
Theorem each_event_writes_at_most_one_line (w : World) (e : event) :
  console (step w e) = console w
  ∨ (console (step w e) = console w ++ [ConsoleLog "Lista salva!"]
     ∧ st_list (cells (step w e)) ≠ [])
  ∨ (∃ err, console (step w e)
            = console w ++ [ConsoleError "Erro ao buscar repositórios:" err]
            ∧ cells (step w e) = cells w).
Proof.
  destruct e as [v|v| |rid o]; simpl.
  - left. apply setInputValue_console.
  - left. apply setFilter_console.
  - unfold addToList.
    destruct (setList_console (st_list (cells w) ++ [Str "Novo item"]) w)
      as [Hc|(Hc & Hl & Hne)]; [by left|].
    right; left. by rewrite Hl.
  - destruct (pending w !! rid); [|by left]. unfold on_settled.
    destruct (_ ≫= _) as [err|names]; [right; right; by exists err|].
    destruct (setList_console names (settled rid w)) as [Hc|(Hc & Hl & Hne)]; [by left|].
    right; left. by rewrite Hl.
Qed.

(** ** Requests *)

Lemma setList_requests l w :
  pending (setList l w) = pending w ∧ next_request (setList l w) = next_request w.
Proof. split; component_cases. Qed.

(** How one event changes the requests in flight: it issues one (a change
    of the identifier to a non-empty string), or settles one, or leaves
    them alone. *)
Lemma step_requests w e :
  (next_request (step w e) = next_request w
   ∧ (pending (step w e) = pending w
      ∨ ∃ rid o, e = Settle rid o ∧ pending (step w e) = delete rid (pending w)))
  ∨ ∃ v, e = ChangeInput v ∧ v ≠ ""
         ∧ next_request (step w e) = S (next_request w)
         ∧ pending (step w e) = <[next_request w := repos_url v]> (pending w).
Proof.
  destruct e as [v|v| |rid o]; simpl.
  - destruct (String.eqb_spec v "") as [->|Hv].
    + left. split; [|left]; component_cases.
    + unfold handleChangeInput, setInputValue, when_mounted, rerender, effect_fetch.
      repeat (case_match; simpl in *; try by (left; split; [|left])).
      right. by exists v.
  - left. split; [|left]; component_cases.
  - left. destruct (setList_requests (st_list (cells w) ++ [Str "Novo item"]) w).
    split; [|left]; done.
  - left. destruct (pending w !! rid); [|by split; [|left]]. unfold on_settled.
    destruct (_ ≫= _) as [err|names].
    + split; [done|]. right. by exists rid, o.
    + destruct (setList_requests names (settled rid w)) as [Hp Hn].
      split; [done|]. right. by exists rid, o.
Qed.

(** X9.  Only a change of the identifier to a non-empty string issues a
    request, and it issues exactly one, for the URL of that identifier; no
    other event does. *)
Theorem only_identifier_changes_issue_requests (w : World) (e : event) :
  next_request (step w e) = next_request w
  ∨ ∃ v, e = ChangeInput v ∧ v ≠ ""
         ∧ next_request (step w e) = S (next_request w)
         ∧ pending (step w e) = <[next_request w := repos_url v]> (pending w).
Proof. destruct (step_requests w e) as [[? _]|?]; auto. Qed.

Lemma requests_numbered_step w e : requests_numbered w → requests_numbered (step w e).
Proof.
  unfold requests_numbered. intros Hw rid url.
  destruct (step_requests w e) as [[Hn [->|(rid' & o & _ & ->)]]|(v & _ & _ & Hn & ->)];
    rewrite Hn.
  - apply Hw.
  - intros [_ ?]%lookup_delete_Some. eauto.
  - intros [[-> _]|[_ ?]]%lookup_insert_Some; [lia|]. apply Nat.lt_lt_succ_r. eauto.
Qed.

Lemma reachable_requests_numbered w : reachable w → requests_numbered w.
Proof.
  intros [evs <-]. generalize mount (ltac:(by intros ? ? ?) : requests_numbered mount).
  induction evs as [|e evs IH]; intros w Hw; [done|].
  simpl. apply IH. by apply requests_numbered_step.
Qed.

(** X10.  A request in flight is never cancelled: whatever else happens (a new
    identifier, the empty identifier, other requests settling), it stays
    in flight, for the same URL, until it settles itself. *)
Theorem requests_never_cancelled (w : World) (e : event) (rid : nat) (url : string) :
  reachable w →
  pending w !! rid = Some url →
  (∀ o, e ≠ Settle rid o) →
  pending (step w e) !! rid = Some url.
Proof.
  intros Hr Hp He. pose proof (reachable_requests_numbered w Hr rid url Hp) as Hlt.
  destruct (step_requests w e) as [[_ [->|(rid' & o & -> & ->)]]|(v & _ & _ & _ & ->)].
  - done.
  - rewrite lookup_delete_ne; [done|]. intros ->. by apply (He o).
  - rewrite lookup_insert_ne; [done|lia].
Qed.

Lemma requests_never_cancelled_witness :
  let w := run mount [ChangeInput "alice"] in
  reachable w
  ∧ pending w !! 0 = Some (repos_url "alice")
  ∧ pending (step w (ChangeInput "")) !! 0 = Some (repos_url "alice")
  ∧ pending (step w (ChangeInput "bob")) !! 0 = Some (repos_url "alice").
Proof.
  intros w. assert (reachable w) as Hr by (by eexists).
  split; [exact Hr|]. split; [reflexivity|]. split.
  - apply (requests_never_cancelled w (ChangeInput "") 0 _ Hr); [reflexivity|discriminate].
  - apply (requests_never_cancelled w (ChangeInput "bob") 0 _ Hr); [reflexivity|discriminate].
Defined.

(** X11.  Every change to a new, non-empty identifier puts one more request in
    flight (there is no debouncing): the number of requests in flight
    grows by one, and the new request is for the URL built from the
    identifier as typed. *)
Theorem each_new_identifier_issues_one_request (w : World) (v : string) :
  reachable w → mounted w = true →
  v ≠ "" → v ≠ st_inputValue (cells w) →
  size (pending (step w (ChangeInput v))) = S (size (pending w))
  ∧ pending (step w (ChangeInput v)) !! next_request w
    = Some ("https://api.github.com/users/" +:+ v +:+ "/repos")
  ∧ st_inputValue (cells (step w (ChangeInput v))) = v.
Proof.
  intros Hr Hm Hv Hne. rewrite (new_identifier_fetches w v Hr Hm Hv Hne). simpl.
  split; [|split; [apply lookup_insert_eq|done]].
  apply map_size_insert_None.
  destruct (pending w !! next_request w) as [url|] eqn:Hp; [|done].
  pose proof (reachable_requests_numbered w Hr _ _ Hp). lia.
Qed.

Lemma each_new_identifier_issues_one_request_witness :
  let w := run mount [ChangeInput "a"] in
  reachable w ∧ mounted w = true
  ∧ size (pending w) = 1
  ∧ size (pending (step w (ChangeInput "ab"))) = 2
  ∧ pending (step w (ChangeInput "ab")) !! 1 = Some "https://api.github.com/users/ab/repos".
Proof.
  intros w. assert (reachable w) as Hr by (by eexists).
  split; [exact Hr|]. split; [reflexivity|]. split; [reflexivity|].
  destruct (each_new_identifier_issues_one_request w "ab" Hr eq_refl)
    as (Hsize & Hurl & _); [discriminate|discriminate|].
  split; [exact Hsize | exact Hurl].
Defined.

(** ** The filtered list as a sub-sequence *)

Lemma array_filter_sublist p l view :
  array_filter p l = inr view → view `sublist_of` l.
Proof.
  revert view. induction l as [|x l IH]; intros view; simpl.
  - by intros [= <-].
  - destruct (p x) as [e|b]; simpl; [done|].
    destruct (array_filter p l) as [e|ys]; simpl; [done|].
    intros [= <-]. specialize (IH ys eq_refl).
    destruct b; [by apply sublist_skip | by apply sublist_cons].
Qed.

(** X12.  Whatever values the list holds, the filtered list of a mounted
    component is a sub-sequence of the list: it never holds an item that
    the list does not hold, and it keeps the list's order. *)
Theorem filtered_list_is_sublist (w : World) :
  reachable w → mounted w = true →
  st_fileredList (cells w) `sublist_of` st_list (cells w).
Proof.
  intros Hr Hm. destruct (reachable_healthy w Hr Hm) as (_ & _ & Hview).
  by eapply array_filter_sublist.
Qed.

Lemma filtered_list_is_sublist_witness :
  let w := run mount [ChangeInput "u";
                      Settle 0 (Responded 200 (inr (Arr
                        [Obj [("full_name", Arr [Str "x"; Num "1"])]; record_of "y"])));
                      ChangeFilter "x"] in
  reachable w ∧ mounted w = true
  ∧ st_list (cells w) = [Arr [Str "x"; Num "1"]; Str "y"]
  ∧ st_fileredList (cells w) = [Arr [Str "x"; Num "1"]]
  ∧ st_fileredList (cells w) `sublist_of` st_list (cells w).
Proof.
  intros w. assert (reachable w) as Hr by (by eexists).
  split; [exact Hr|]. do 3 (split; [reflexivity|]).
  exact (filtered_list_is_sublist w Hr eq_refl).
Defined.

Lemma string_app_assoc (a b c : string) : (a +:+ b) +:+ c = a +:+ (b +:+ c).
Proof.
  induction a as [|x a IH]; [done|].
  change (String x ((a +:+ b) +:+ c) = String x (a +:+ (b +:+ c))). by rewrite IH.
Qed.

Lemma contains_substring_trans f g x :
  contains_substring f g → contains_substring g x → contains_substring f x.
Proof.
  intros (p1 & q1 & ->) (p2 & q2 & ->).
  exists (p2 +:+ p1), (q1 +:+ q2). by rewrite !string_app_assoc.
Qed.

Lemma filter_includes_narrows f g (L : list string) :
  contains_substring f g →
  List.filter (λ x, includes x g) L `sublist_of` List.filter (λ x, includes x f) L.
Proof.
  intros Hfg. induction L as [|x L IH]; [done|]. simpl.
  destruct (includes x g) eqn:Hg.
  - assert (includes x f = true) as ->.
    { apply includes_spec. eapply contains_substring_trans; [done|].
      by apply includes_spec. }
    by apply sublist_skip.
  - destruct (includes x f); [by apply sublist_cons | done].
Qed.

(** X13.  Typing more can only narrow the result: for a list of names, when the
    former filter text occurs in the new one (for instance the new one
    extends it by some characters), the new filtered list is a
    sub-sequence of the former filtered list. *)
Theorem longer_filter_narrows (w : World) (L : list string) (g : string) :
  reachable w → mounted w = true →
  st_list (cells w) = Str <$> L →
  contains_substring (st_filter (cells w)) g →
  st_fileredList (cells (step w (ChangeFilter g)))
  `sublist_of` st_fileredList (cells w).
Proof.
  intros Hr Hm HL Hfg. destruct (reachable_healthy w Hr Hm) as (_ & _ & Hold).
  rewrite HL, array_filter_strings in Hold. injection Hold as Hold.
  rewrite (setFilter_commits g (Str <$> List.filter (λ x, includes x g) L) w Hr Hm)
    by (rewrite HL; apply array_filter_strings).
  simpl. rewrite <- Hold. apply fmap_sublist. by apply filter_includes_narrows.
Qed.

Lemma longer_filter_narrows_witness :
  let w := run mount [ChangeInput "u"; Settle 0 (repos ["u/web"; "u/app"; "u/webapp"]);
                      ChangeFilter "we"] in
  reachable w ∧ mounted w = true
  ∧ st_list (cells w) = Str <$> ["u/web"; "u/app"; "u/webapp"]
  ∧ contains_substring (st_filter (cells w)) "weba"
  ∧ st_fileredList (cells w) = [Str "u/web"; Str "u/webapp"]
  ∧ st_fileredList (cells (step w (ChangeFilter "weba"))) = [Str "u/webapp"]
  ∧ st_fileredList (cells (step w (ChangeFilter "weba")))
    `sublist_of` st_fileredList (cells w).
Proof.
  intros w. assert (reachable w) as Hr by (by eexists).
  assert (contains_substring (st_filter (cells w)) "weba") as Hsub
    by (exists "", "ba"; reflexivity).
  split; [exact Hr|]. do 2 (split; [reflexivity|]). split; [exact Hsub|].
  do 2 (split; [reflexivity|]).
  exact (longer_filter_narrows w ["u/web"; "u/app"; "u/webapp"] "weba"
           Hr eq_refl eq_refl Hsub).
Defined.

(** ** Clicking the button *)

(** X14.  The placeholder joins the filtered list exactly when the filter text
    occurs in ["Novo item"]; the rest of the filtered list, the filter
    text, the identifier and the requests in flight are as before, and
    the notifier fires once.  This holds whatever values the list holds. *)
Theorem placeholder_filtered_like_any_item (w : World) :
  reachable w → mounted w = true →
  st_list (cells (step w ClickAdd)) = st_list (cells w) ++ [Str "Novo item"]
  ∧ st_fileredList (cells (step w ClickAdd))
    = st_fileredList (cells w)
      ++ (if includes "Novo item" (st_filter (cells w)) then [Str "Novo item"] else [])
  ∧ (includes "Novo item" (st_filter (cells w)) = true
     ↔ contains_substring (st_filter (cells w)) "Novo item")
  ∧ st_filter (cells (step w ClickAdd)) = st_filter (cells w)
  ∧ st_inputValue (cells (step w ClickAdd)) = st_inputValue (cells w)
  ∧ pending (step w ClickAdd) = pending w
  ∧ console (step w ClickAdd) = console w ++ [ConsoleLog "Lista salva!"].
Proof.
  intros Hr Hm. rewrite (addToList_commits w Hr Hm). unfold list_committed.
  cbn [cells console pending st_list st_fileredList st_filter st_inputValue
       with_fileredList with_list].
  split; [done|]. split; [done|]. split; [apply includes_spec|].
  do 3 (split; [done|]). by destruct (st_list (cells w)).
Qed.

Lemma placeholder_filtered_like_any_item_witness :
  let w := run mount [ChangeInput "u"; Settle 0 (repos ["u/app"]); ChangeFilter "item"] in
  reachable w ∧ mounted w = true
  ∧ st_fileredList (cells w) = []
  ∧ st_list (cells (step w ClickAdd)) = [Str "u/app"; Str "Novo item"]
  ∧ st_fileredList (cells (step w ClickAdd)) = [Str "Novo item"].
Proof.
  intros w. assert (reachable w) as Hr by (by eexists).
  destruct (placeholder_filtered_like_any_item w Hr eq_refl) as (Hl & Hf & _).
  split; [exact Hr|]. do 2 (split; [reflexivity|]).
  split; [exact Hl | exact Hf].
Defined.

Lemma run_app w evs1 evs2 : run w (evs1 ++ evs2) = run (run w evs1) evs2.
Proof. unfold run. apply foldl_app. Qed.

(** X15.  Clicks add up: [n] clicks in a row append [n] placeholders to the
    list, fire the notifier [n] times, keep the component mounted and
    issue no request. *)
Theorem clicks_append_placeholders (w : World) (n : nat) :
  reachable w → mounted w = true →
  st_list (cells (run w (replicate n ClickAdd)))
  = st_list (cells w) ++ replicate n (Str "Novo item")
  ∧ notifications (run w (replicate n ClickAdd)) = notifications w + n
  ∧ mounted (run w (replicate n ClickAdd)) = true
  ∧ pending (run w (replicate n ClickAdd)) = pending w.
Proof.
  intros Hr Hm. induction n as [|n (Hl & Hn & Hmn & Hp)].
  - simpl. rewrite app_nil_r. split; [done|]. split; [lia|done].
  - rewrite replicate_S_end, run_app.
    change (run (run w (replicate n ClickAdd)) [ClickAdd])
      with (step (run w (replicate n ClickAdd)) ClickAdd).
    assert (reachable (run w (replicate n ClickAdd))) as Hrn.
    { destruct Hr as [evs <-]. exists (evs ++ replicate n ClickAdd). apply run_app. }
    rewrite (addToList_commits _ Hrn Hmn). unfold list_committed, notifications in *.
    cbn [cells console pending mounted st_list with_fileredList with_list].
    rewrite Hl, Hp. split; [by rewrite (replicate_S_end n (Str "Novo item")), app_assoc|].
    split; [|done]. rewrite List.filter_app, length_app, Hn.
    destruct (st_list (cells w) ++ replicate n (Str "Novo item")); simpl; lia.
Qed.

Lemma clicks_append_placeholders_witness :
  let w := run mount [ChangeInput "u"; Settle 0 (repos ["u/app"])] in
  reachable w ∧ mounted w = true
  ∧ st_list (cells (run w (replicate 3 ClickAdd)))
    = [Str "u/app"; Str "Novo item"; Str "Novo item"; Str "Novo item"]
  ∧ notifications (run w (replicate 3 ClickAdd)) = notifications w + 3.
Proof.
  intros w. assert (reachable w) as Hr by (by eexists).
  destruct (clicks_append_placeholders w 3 Hr eq_refl) as (Hl & Hn & _).
  split; [exact Hr|]. split; [reflexivity|]. split; [exact Hl | exact Hn].
Defined.

(** ** The extraction of names, case by case *)

Lemma array_map_full_name_ok items names :
  array_map full_name items = inr names →
  (∀ item, item ∈ items → nullish item = false)
  ∧ names = full_name_or_undefined <$> items.
Proof.
  revert names. induction items as [|x items IH]; intros names; simpl.
  - intros [= <-]. split; [by intros ? ?%elem_of_nil|done].
  - destruct (full_name x) as [e|y] eqn:Hx; simpl; [done|].
    destruct (array_map full_name items) as [e|ys]; simpl; [done|].
    intros [= <-]. destruct (IH ys eq_refl) as [Hnn ->].
    split.
    + intros item [->|Hin]%elem_of_cons; [by destruct x|by apply Hnn].
    + f_equal. destruct x; simpl in *; unfold ok, throw in *; congruence.
Qed.

(** X16.  [data.map((item: any) => item.full_name)] throws, always a
    [TypeError], exactly when [data] is not an array or holds a [null];
    otherwise it yields one value per element, in order: the [full_name] of
    a record that has one, and [undefined] for a record without the field
    and for any element that is not a record. *)
Theorem extraction_yields_one_value_per_item (data : value) :
  match extract_names data with
  | inl e => not_extractable data ∧ ∃ m, e = TypeError m
  | inr names =>
      ∃ items, data = Arr items
               ∧ (∀ item, item ∈ items → nullish item = false)
               ∧ names = full_name_or_undefined <$> items
  end.
Proof.
  destruct (extract_names data) as [e|names] eqn:Hx.
  - pose proof (extract_fails_not_extractable data e Hx) as Hne.
    split; [done|]. destruct (not_extractable_fails data Hne) as [m Hm].
    exists m. congruence.
  - destruct data as [| | | | |items|]; simpl in Hx; try done.
    exists items. split; [done|]. by apply array_map_full_name_ok.
Qed.
